(** * Stiffness matrix of the perfectly square bilinear element

    A shallow embedding of the notebook [notebooks/4_noded_square.ipynb]:
    the routines [shape4], [stdm4] and [umat], the integrand
    [K_int = B.T*C*B], the double loop that integrates it over
    [-h,h] x [-h,h] and the substitution of the sample values.

    Modelling choices.
    - The notebook computes with sympy expressions.  The material and
      geometric parameters [E], [nu], [h] are shallow: they are elements of
      a type of scalars [F] (the reals for the theorems, the rationals for
      running the code).  The space variables [x], [y] are the only symbols
      that [sym.diff] and [sym.integrate] act on, so expressions in them are
      kept syntactic: polynomials in [x] whose coefficients are polynomials
      in [y].
    - [sym.diff] and [sym.integrate] belong to sympy, not to the notebook.
      On polynomials they are the formal derivative and the primitive
      evaluated at the two bounds; [diff_x_correct], [diff_y_correct] and
      [pprim_correct] relate them to the derivative of real analysis.
    - The float literals of the notebook ([2.0], [1.0/3.0], [8.0/3.0],
      [1.00]) are read as the exact numbers they denote.
    - Division is total in the model.  sympy answers [zoo] or [nan] where a
      denominator vanishes; the model is meant away from those points. *)

From Stdlib Require Import ZArith QArith List.
From Stdlib Require Import Reals Lra Psatz.
Import ListNotations.

(** ** Numbers and expressions *)

(** The scalars: what [E], [nu], [h] and the numeric literals are. *)
Class Scalar (F : Type) := {
  fzero : F;
  fone : F;
  fadd : F -> F -> F;
  fsub : F -> F -> F;
  fmul : F -> F -> F;
  fdiv : F -> F -> F;
  fopp : F -> F;
  ofZ : Z -> F
}.

(** What the arithmetic of the notebook is written against: anything that
    can be added, subtracted, multiplied, multiplied by a scalar, and that
    scalars embed into.  Python resolves [+], [-], [*] dynamically; both
    plain numbers and symbolic expressions answer to them. *)
Class Expr (F A : Type) := {
  zero : A;
  add : A -> A -> A;
  sub : A -> A -> A;
  mul : A -> A -> A;
  scale : F -> A -> A;
  const : F -> A
}.

#[global] Instance Expr_scalar (F : Type) `{Scalar F} : Expr F F := {
  zero := fzero;
  add := fadd;
  sub := fsub;
  mul := fmul;
  scale := fmul;
  const := fun c => c
}.

(** [a ** n] for a literal exponent. *)
Fixpoint fpow {F : Type} `{Scalar F} (a : F) (n : nat) : F :=
  match n with
  | O => fone
  | S k => fmul a (fpow a k)
  end.

(** ** Polynomials, coefficients in increasing degree *)

Definition poly (A : Type) := list A.

Section Poly.
Context {F A : Type} `{Scalar F} `{Expr F A}.

Fixpoint padd (p q : poly A) : poly A :=
  match p, q with
  | [], _ => q
  | _, [] => p
  | a :: p', b :: q' => add a b :: padd p' q'
  end.

Fixpoint psub (p q : poly A) : poly A :=
  match p, q with
  | [], _ => map (sub zero) q
  | _, [] => p
  | a :: p', b :: q' => sub a b :: psub p' q'
  end.

Definition pscale (c : F) (p : poly A) : poly A := map (scale c) p.

Fixpoint pmul (p q : poly A) : poly A :=
  match p with
  | [] => []
  | a :: p' => padd (map (mul a) q) (zero :: pmul p' q)
  end.

Definition pconst (c : F) : poly A := [const c].

(** Value at a scalar point, by Horner's rule. *)
Fixpoint peval (p : poly A) (t : F) : A :=
  match p with
  | [] => zero
  | a :: p' => add a (scale t (peval p' t))
  end.

(** Formal derivative: the coefficient of degree [k] is multiplied by [k]
    and moved one place down. *)
Fixpoint pderiv_from (k : nat) (p : poly A) : poly A :=
  match p with
  | [] => []
  | a :: p' => scale (ofZ (Z.of_nat k)) a :: pderiv_from (S k) p'
  end.

Definition pderiv (p : poly A) : poly A :=
  match p with
  | [] => []
  | _ :: p' => pderiv_from 1 p'
  end.

(** Primitive with constant term zero: the coefficient of degree [k] is
    divided by [k+1] and moved one place up. *)
Fixpoint pprim_from (k : nat) (p : poly A) : poly A :=
  match p with
  | [] => []
  | a :: p' =>
      scale (fdiv fone (ofZ (Z.of_nat (S k)))) a :: pprim_from (S k) p'
  end.

Definition pprim (p : poly A) : poly A := zero :: pprim_from 0 p.

(** Definite integral of a polynomial between two scalar bounds. *)
Definition pintegral (p : poly A) (lo hi : F) : A :=
  sub (peval (pprim p) hi) (peval (pprim p) lo).

End Poly.

#[global] Instance Expr_poly (F A : Type) `{Scalar F} `{Expr F A}
  : Expr F (poly A) := {
  zero := [];
  add := padd;
  sub := psub;
  mul := pmul;
  scale := pscale;
  const := pconst
}.

(** ** Symbolic expressions in the two space variables *)

(** A sympy expression in [x] and [y]: a polynomial in [x] over the
    polynomials in [y]. *)
Definition expr (F : Type) := poly (poly F).

Inductive symbol := sym_x | sym_y.

Section Symbolic.
Context {F : Type} `{Scalar F}.

(** The symbol itself, as an expression. *)
Definition var (s : symbol) : expr F :=
  match s with
  | sym_x => [[]; [fone]]
  | sym_y => [[fzero; fone]]
  end.

(** [sym.diff(e, s)]. *)
Definition diff (e : expr F) (s : symbol) : expr F :=
  match s with
  | sym_x => pderiv e
  | sym_y => map pderiv e
  end.

(** Value of an expression at the point [(a, b)]. *)
Definition eval (e : expr F) (a b : F) : F := peval (peval e a) b.

(** [sym.integrate(e, (x, xlo, xhi), (y, ylo, yhi))]: the limits are taken
    in the order written, [x] first. *)
Definition integrate (e : expr F) (xlo xhi ylo yhi : F) : F :=
  pintegral (pintegral e xlo xhi) ylo yhi.

End Symbolic.

(** ** Matrices *)

(** Row after row.  The shapes that meet in the notebook always fit; where
    they would not, sympy raises and the model truncates. *)
Definition matrix (A : Type) := list (list A).

Section Matrix.
Context {F A : Type} `{Scalar F} `{Expr F A}.

(** [sym.zeros(r, c)]. *)
Definition zeros (r c : nat) : matrix A := repeat (repeat zero c) r.

(** [M[i, j]] read. *)
Definition mget (M : matrix A) (i j : nat) : A :=
  nth j (nth i M []) zero.

Fixpoint upd {T : Type} (l : list T) (n : nat) (v : T) : list T :=
  match l, n with
  | [], _ => []
  | _ :: t, O => v :: t
  | a :: t, S k => a :: upd t k v
  end.

(** [M[i, j] = v].  The notebook only writes at positions inside the
    matrix; outside it sympy raises and the model leaves [M] as it is. *)
Definition mset (M : matrix A) (i j : nat) (v : A) : matrix A :=
  upd M i (upd (nth i M []) j v).

Definition nrows (M : matrix A) : nat := length M.
Definition ncols (M : matrix A) : nat := length (hd [] M).

(** [M.T]. *)
Definition transpose (M : matrix A) : matrix A :=
  map (fun j => map (fun i => mget M i j) (seq 0 (nrows M)))
      (seq 0 (ncols M)).

Definition dot (u v : list A) : A :=
  fold_right add zero (map (fun p => mul (fst p) (snd p)) (combine u v)).

Definition column (M : matrix A) (j : nat) : list A :=
  map (fun row => nth j row zero) M.

(** [M * N]. *)
Definition mmul (M N : matrix A) : matrix A :=
  map (fun row => map (fun j => dot row (column N j)) (seq 0 (ncols N))) M.

End Matrix.

(** ** The routines of the notebook *)

Section Notebook.
Context {F : Type} `{Scalar F}.

(** [shape4(x, y, h)]: shape functions of the bilinear element.  The first
    assignment [N = sym.zeros(4)] of the source is overwritten at once and
    leaves no trace.  The routine is written for whatever [x] and [y] are:
    numbers, or the symbols. *)
Definition shape4 {A : Type} `{Expr F A} (x y : A) (h : F) : list A :=
  map (scale (fdiv fone (fmul (ofZ 4) (fpow h 2))))
      [ mul (add (const h) x) (add (const h) y);
        mul (sub (const h) x) (add (const h) y);
        mul (sub (const h) x) (sub (const h) y);
        mul (add (const h) x) (sub (const h) y) ].

(** [stdm4(x, y, h)]: strain-displacement interpolator.  [x] and [y] are
    the symbols the shape functions are differentiated in. *)
Definition stdm4 (x y : symbol) (h : F) : matrix (expr F) :=
  let B := zeros 3 8 in
  let N := shape4 (var x) (var y) h in
  let dhdx := zeros 2 4 in
  let dhdx :=
    fold_left (fun dhdx i =>
                 let dhdx := mset dhdx 0 i (diff (nth i N zero) x) in
                 let dhdx := mset dhdx 1 i (diff (nth i N zero) y) in
                 dhdx)
              (seq 0 4) dhdx in
  let B :=
    fold_left (fun B i =>
                 let B := mset B 0 (2 * i) (mget dhdx 0 i) in
                 let B := mset B 1 (2 * i + 1) (mget dhdx 1 i) in
                 let B := mset B 2 (2 * i) (mget dhdx 1 i) in
                 let B := mset B 2 (2 * i + 1) (mget dhdx 0 i) in
                 B)
              (seq 0 4) B in
  B.

(** [umat(nu, E)]: plane stress constitutive tensor. *)
Definition umat (nu E : F) : matrix F :=
  let C := zeros 3 3 in
  let G := fdiv E (fsub fone (fpow nu 2)) in
  let mnu := fdiv (fsub fone nu) (ofZ 2) in
  let C := mset C 0 0 G in
  let C := mset C 0 1 (fmul nu G) in
  let C := mset C 1 0 (mget C 0 1) in
  let C := mset C 1 1 G in
  let C := mset C 2 2 (fmul G mnu) in
  C.

(** [K_int = B.T*C*B] with [C = umat(nu, E)] and [B = stdm4(x, y, h)].  The
    entries of [C] do not depend on [x] and [y]; they enter the product as
    constant expressions. *)
Definition K_int (E nu h : F) : matrix (expr F) :=
  let C := map (map (fun c => const c : expr F)) (umat nu E) in
  let B := stdm4 sym_x sym_y h in
  mmul (mmul (transpose B) C) B.

(** The double loop
    [K[i,j] = sym.integrate(K_int[i,j], (x,-h,h), (y,-h,h))], started from
    [K = sym.zeros(8,8)]. *)
Definition K (E nu h : F) : matrix F :=
  let Ki := K_int E nu h in
  fold_left (fun K i =>
               fold_left (fun K j =>
                            mset K i j
                              (integrate (mget Ki i j)
                                         (fopp h) h (fopp h) h))
                         (seq 0 8) K)
            (seq 0 8) (zeros 8 8).

(** The sample values of the notebook and [kk = K.subs(...)]. *)
Definition nuu : F := fdiv (ofZ 1) (ofZ 3).
Definition EE : F := fdiv (ofZ 8) (ofZ 3).
Definition kk : matrix F := K EE nuu (ofZ 1).

End Notebook.

(** ** The two types of scalars *)

#[global] Instance Scalar_R : Scalar R := {
  fzero := 0%R;
  fone := 1%R;
  fadd := Rplus;
  fsub := Rminus;
  fmul := Rmult;
  fdiv := Rdiv;
  fopp := Ropp;
  ofZ := IZR
}.

(** Exact rationals, kept in lowest terms so that results print as they
    are. *)
#[global] Instance Scalar_Q : Scalar Q := {
  fzero := 0%Q;
  fone := 1%Q;
  fadd := fun a b => Qred (Qplus a b);
  fsub := fun a b => Qred (Qminus a b);
  fmul := fun a b => Qred (Qmult a b);
  fdiv := fun a b => Qred (Qdiv a b);
  fopp := Qopp;
  ofZ := inject_Z
}.

Open Scope R_scope.

(** ** Vocabulary of the statements *)

(** An expression with [y] fixed at [b]: a polynomial in [x]. *)
Definition at_y (e : expr R) (b : R) : poly R := map (fun c => peval c b) e.

(** The corners of the element, counter-clockwise from [(+h, +h)]. *)
Definition nodes (h : R) : list (R * R) :=
  [ (h, h); (- h, h); (- h, - h); (h, - h) ].

Definition total (l : list R) : R := fold_right Rplus 0 l.

(** Entry by entry, the stiffness matrix is a combination of three
    stiffnesses: the axial one [g], the coupling [c] and the shear one
    [s]. *)
Definition K_of (g c s : R) : matrix R :=
  [ [ g / 3 + s / 3; c / 4 + s / 4; - g / 3 + s / 6; c / 4 - s / 4;
      - g / 6 - s / 6; - c / 4 - s / 4; g / 6 - s / 3; - c / 4 + s / 4 ];
    [ c / 4 + s / 4; g / 3 + s / 3; - c / 4 + s / 4; g / 6 - s / 3;
      - c / 4 - s / 4; - g / 6 - s / 6; c / 4 - s / 4; - g / 3 + s / 6 ];
    [ - g / 3 + s / 6; - c / 4 + s / 4; g / 3 + s / 3; - c / 4 - s / 4;
      g / 6 - s / 3; c / 4 - s / 4; - g / 6 - s / 6; c / 4 + s / 4 ];
    [ c / 4 - s / 4; g / 6 - s / 3; - c / 4 - s / 4; g / 3 + s / 3;
      - c / 4 + s / 4; - g / 3 + s / 6; c / 4 + s / 4; - g / 6 - s / 6 ];
    [ - g / 6 - s / 6; - c / 4 - s / 4; g / 6 - s / 3; - c / 4 + s / 4;
      g / 3 + s / 3; c / 4 + s / 4; - g / 3 + s / 6; c / 4 - s / 4 ];
    [ - c / 4 - s / 4; - g / 6 - s / 6; c / 4 - s / 4; - g / 3 + s / 6;
      c / 4 + s / 4; g / 3 + s / 3; - c / 4 + s / 4; g / 6 - s / 3 ];
    [ g / 6 - s / 3; c / 4 - s / 4; - g / 6 - s / 6; c / 4 + s / 4;
      - g / 3 + s / 6; - c / 4 + s / 4; g / 3 + s / 3; - c / 4 - s / 4 ];
    [ - c / 4 + s / 4; - g / 3 + s / 6; c / 4 + s / 4; - g / 6 - s / 6;
      c / 4 - s / 4; g / 6 - s / 3; - c / 4 - s / 4; g / 3 + s / 3 ] ].

(** With [g = E/(1-nu^2)], [c = nu*g] and [s = g*(1-nu)/2]; the half width
    [h] has left. *)
Definition K_closed (E nu : R) : matrix R :=
  let g := E / (1 - nu ^ 2) in
  K_of g (nu * g) (g * ((1 - nu) / 2)).

(** The factor that the integration leaves in front of every entry: the
    square of the scale [1/(4h^2)] of the shape functions, times what the
    area contributes.  It is [1] as soon as [h] is not zero. *)
Definition h_factor (h : R) : R :=
  16 * (1 / (4 * h ^ 2) * (1 / (4 * h ^ 2))) * (h * h * h * h).

(** The matrix printed by [print(sym.N(kk, 3))], as it stands in the
    notebook. *)
Definition kk_printed : matrix R :=
  [ [  1.33;    0.5; -0.833;      0; -0.667;   -0.5;  0.167;      0 ];
    [   0.5;   1.33;      0;  0.167;   -0.5; -0.667;      0; -0.833 ];
    [-0.833;      0;   1.33;   -0.5;  0.167;      0; -0.667;    0.5 ];
    [     0;  0.167;   -0.5;   1.33;      0; -0.833;    0.5; -0.667 ];
    [-0.667;   -0.5;  0.167;      0;   1.33;    0.5; -0.833;      0 ];
    [  -0.5; -0.667;      0; -0.833;    0.5;   1.33;      0;  0.167 ];
    [ 0.167;      0; -0.667;    0.5; -0.833;      0;   1.33;   -0.5 ];
    [     0; -0.833;    0.5; -0.667;      0;  0.167;   -0.5;   1.33 ] ].

(** [a] agrees with the printed number [r] to three significant digits:
    [r] is zero and so is [a], or [r] is a three-digit mantissa [m] times a
    power of ten and [a] lies within half a unit of the last digit. *)
Definition agrees3 (a r : R) : Prop :=
  (r = 0 /\ a = 0) \/
  exists m e : Z,
    (100 <= Z.abs m < 1000)%Z /\
    r = IZR m * powerRZ 10 e /\
    Rabs (a - r) <= powerRZ 10 e / 2.

(** The exact value of [kk]. *)
Definition kk_exact : matrix R :=
  [ [ 4/3; 1/2; -5/6; 0; -2/3; -1/2; 1/6; 0 ];
    [ 1/2; 4/3; 0; 1/6; -1/2; -2/3; 0; -5/6 ];
    [ -5/6; 0; 4/3; -1/2; 1/6; 0; -2/3; 1/2 ];
    [ 0; 1/6; -1/2; 4/3; 0; -5/6; 1/2; -2/3 ];
    [ -2/3; -1/2; 1/6; 0; 4/3; 1/2; -5/6; 0 ];
    [ -1/2; -2/3; 0; -5/6; 1/2; 4/3; 0; 1/6 ];
    [ 1/6; 0; -2/3; 1/2; -5/6; 0; 4/3; -1/2 ];
    [ 0; -5/6; 1/2; -2/3; 0; 1/6; -1/2; 4/3 ] ].

(** [M v] and [v^T M v]. *)
Definition mvec (M : matrix R) (v : list R) : list R :=
  map (fun row => dot row v) M.

Definition quad (M : matrix R) (v : list R) : R := dot v (mvec M v).

(** Nodal displacements [(u1, v1, ..., u4, v4)] of the three rigid motions:
    the two translations, and the rotation about the centre, which moves
    the node at [(x, y)] by [(-y, x)]. *)
Definition trans_x : list R := [1; 0; 1; 0; 1; 0; 1; 0].
Definition trans_y : list R := [0; 1; 0; 1; 0; 1; 0; 1].
Definition rotation (h : R) : list R :=
  flat_map (fun n => [- snd n; fst n]) (nodes h).

Definition vadd (u v : list R) : list R :=
  map (fun p => fst p + snd p) (combine u v).
Definition vscale (a : R) (v : list R) : list R := map (Rmult a) v.

Definition rigid (h a b c : R) : list R :=
  vadd (vscale a trans_x) (vadd (vscale b trans_y) (vscale c (rotation h))).

(** A bilinear field [a + b x + c y + d x y]. *)
Definition bilinear (a b c d x y : R) : R := a + b * x + c * y + d * (x * y).

(** The values of a field at the four nodes. *)
Definition nodal (f : R -> R -> R) (h : R) : list R :=
  map (fun n => f (fst n) (snd n)) (nodes h).

(** The nodal displacements [(u1, v1, ..., u4, v4)] of a displacement
    field [(u, v)]. *)
Definition nodal_disp (u v : R -> R -> R) (h : R) : list R :=
  flat_map (fun n => [u (fst n) (snd n); v (fst n) (snd n)]) (nodes h).

(** [B] and the integrand at a point. *)
Definition B_at (h x y : R) : matrix R :=
  map (map (fun e => eval e x y)) (stdm4 sym_x sym_y h).

Definition K_int_at (E nu h x y : R) : matrix R :=
  map (map (fun e => eval e x y)) (K_int E nu h).

Definition compliance (nu E : R) : matrix R :=
  [ [ 1 / E; - nu / E; 0 ];
    [ - nu / E; 1 / E; 0 ];
    [ 0; 0; 2 * (1 + nu) / E ] ].

Definition identity3 : matrix R := [ [1; 0; 0]; [0; 1; 0]; [0; 0; 1] ].

(** ** Tactics *)

(** Run the model down to the arithmetic of the reals. *)
Ltac rcompute :=
  cbv -[Rplus Rminus Rmult Rdiv Ropp Rinv IZR].

(** Equality of two lists written out, element by element. *)
Ltac list_eq :=
  repeat (apply (f_equal2 (@cons _))); try reflexivity.

Ltac agree_zero := left; split; lra.

Ltac agree_with m e :=
  right; exists m, e; split; [lia|]; split;
  [ simpl; lra
  | simpl; unfold Rabs; destruct (Rcase_abs _); lra ].

Ltac agree :=
  first [ agree_zero
        | agree_with 133%Z (-2)%Z | agree_with (-133)%Z (-2)%Z
        | agree_with 500%Z (-3)%Z | agree_with (-500)%Z (-3)%Z
        | agree_with 833%Z (-3)%Z | agree_with (-833)%Z (-3)%Z
        | agree_with 667%Z (-3)%Z | agree_with (-667)%Z (-3)%Z
        | agree_with 167%Z (-3)%Z | agree_with (-167)%Z (-3)%Z ].

(** ** The code runs *)

(** On exact rationals the notebook evaluates, by computation alone, to the
    matrix whose three-digit rounding it prints. *)
Example kk_runs :
  kk (F:=Q) =
  [ [ 4#3; 1#2; -5#6; 0; -2#3; -1#2; 1#6; 0 ];
    [ 1#2; 4#3; 0; 1#6; -1#2; -2#3; 0; -5#6 ];
    [ -5#6; 0; 4#3; -1#2; 1#6; 0; -2#3; 1#2 ];
    [ 0; 1#6; -1#2; 4#3; 0; -5#6; 1#2; -2#3 ];
    [ -2#3; -1#2; 1#6; 0; 4#3; 1#2; -5#6; 0 ];
    [ -1#2; -2#3; 0; -5#6; 1#2; 4#3; 0; 1#6 ];
    [ 1#6; 0; -2#3; 1#2; -5#6; 0; 4#3; -1#2 ];
    [ 0; -5#6; 1#2; -2#3; 0; 1#6; -1#2; 4#3 ] ]%Q.
Proof. vm_compute. reflexivity. Qed.

Example integrate_area (h : R) :
  integrate [[1]] (- h) h (- h) h = 4 * h ^ 2.
Proof. rcompute. field. Qed.

(** ** Polynomial calculus against real analysis *)

Section Calculus.
Implicit Types p q : poly R.
Implicit Types e : expr R.

Lemma peval_padd p q t : peval (padd p q) t = peval p t + peval q t.
Proof.
  revert q. induction p as [|a p IH]; intros [|b q]; simpl;
    try rewrite IH; simpl; ring.
Qed.

Lemma peval_psub p q t : peval (psub p q) t = peval p t - peval q t.
Proof.
  revert q. induction p as [|a p IH]; intros q.
  - induction q as [|b q IHq]; cbn.
    + ring.
    + cbn in IHq. rewrite IHq. ring.
  - destruct q as [|b q]; cbn.
    + ring.
    + rewrite IH. ring.
Qed.

Lemma peval_pscale c p t : peval (pscale c p) t = c * peval p t.
Proof.
  induction p as [|a p IH]; cbn.
  - ring.
  - change (map (Rmult c) p) with (pscale c p). rewrite IH. ring.
Qed.

Lemma padd_nil_r (A : Type) `{Expr R A} (p : poly A) : padd p [] = p.
Proof. destruct p; reflexivity. Qed.

Lemma pderiv_from_succ k p t :
  peval (pderiv_from (S k) p) t = peval (pderiv_from k p) t + peval p t.
Proof.
  revert k. induction p as [|a p IH]; intros k; simpl.
  - ring.
  - rewrite (IH (S k)). simpl.
    replace (IZR (Z.pos (Pos.of_succ_nat k))) with (IZR (Z.of_nat k) + 1).
    + ring.
    + rewrite <- plus_IZR. f_equal. lia.
Qed.

Lemma pderiv_from_zero p t :
  peval (pderiv_from 0 p) t = t * peval (pderiv p) t.
Proof. destruct p; simpl; ring. Qed.

Lemma pderiv_cons a p t :
  peval (pderiv (a :: p)) t = peval p t + t * peval (pderiv p) t.
Proof.
  simpl. rewrite pderiv_from_succ, pderiv_from_zero. ring.
Qed.

(** The formal derivative is the derivative. *)
Lemma pderiv_correct p t :
  derivable_pt_lim (fun u => peval p u) t (peval (pderiv p) t).
Proof.
  induction p as [|a p IH].
  - simpl. apply (derivable_pt_lim_const 0).
  - rewrite pderiv_cons.
    apply derivable_pt_lim_ext
      with (f := (fct_cte a + id * (fun u => peval p u))%F).
    + intros z. reflexivity.
    + replace (peval p t + t * peval (pderiv p) t)
        with (0 + (1 * peval p t + id t * peval (pderiv p) t))
        by (unfold id; ring).
      apply derivable_pt_lim_plus.
      * apply derivable_pt_lim_const.
      * apply derivable_pt_lim_mult; [apply derivable_pt_lim_id | exact IH].
Qed.

Lemma pderiv_pprim_from k p t :
  peval (pderiv_from (S k) (pprim_from k p)) t = peval p t.
Proof.
  revert k. induction p as [|a p IH]; intros k; simpl.
  - reflexivity.
  - rewrite (IH (S k)).
    assert (Hk : IZR (Z.pos (Pos.of_succ_nat k)) <> 0).
    { apply not_0_IZR. lia. }
    field. exact Hk.
Qed.

(** The primitive used by the integration is one: its derivative is the
    integrand. *)
Lemma pprim_correct p t :
  derivable_pt_lim (fun u => peval (pprim p) u) t (peval p t).
Proof.
  rewrite <- (pderiv_pprim_from 0 p t).
  apply (pderiv_correct (pprim p) t).
Qed.

(** Hence [pintegral p lo hi], the difference of the primitive between the
    bounds, is the integral of [p] from [lo] to [hi] in the sense of
    Newton. *)
Lemma pintegral_antiderivative p lo hi :
  lo <= hi ->
  antiderivative (fun u => peval p u) (fun u => peval (pprim p) u) lo hi
  /\ pintegral p lo hi = peval (pprim p) hi - peval (pprim p) lo.
Proof.
  intros Hle. split; [split; [|exact Hle] | reflexivity].
  intros t _.
  exists (exist _ (peval p t) (pprim_correct p t)). reflexivity.
Qed.

Lemma eval_at_y e a b : eval e a b = peval (at_y e b) a.
Proof.
  unfold eval. induction e as [|c e IH]; simpl.
  - reflexivity.
  - rewrite peval_padd, peval_pscale, IH. reflexivity.
Qed.

Lemma at_y_pderiv_from k e b :
  at_y (pderiv_from k e) b = pderiv_from k (at_y e b).
Proof.
  revert k. induction e as [|c e IH]; intros k; simpl.
  - reflexivity.
  - rewrite IH, peval_pscale. reflexivity.
Qed.

Lemma at_y_pderiv e b : at_y (pderiv e) b = pderiv (at_y e b).
Proof. destruct e; simpl; [reflexivity | apply at_y_pderiv_from]. Qed.

(** [sym.diff(e, x)] is the partial derivative in [x]. *)
Lemma diff_x_correct e a b :
  derivable_pt_lim (fun t => eval e t b) a (eval (diff e sym_x) a b).
Proof.
  simpl. rewrite eval_at_y, at_y_pderiv.
  apply derivable_pt_lim_ext with (f := fun t => peval (at_y e b) t).
  - intros z. symmetry. apply eval_at_y.
  - apply pderiv_correct.
Qed.

Lemma pderiv_from_padd k p q :
  pderiv_from k (padd p q) = padd (pderiv_from k p) (pderiv_from k q).
Proof.
  revert k q. induction p as [|a p IH]; intros k [|b q]; simpl;
    try reflexivity.
  rewrite IH. f_equal. ring.
Qed.

Lemma pderiv_padd p q : pderiv (padd p q) = padd (pderiv p) (pderiv q).
Proof.
  destruct p as [|a p], q as [|b q]; simpl; try reflexivity.
  - symmetry. apply padd_nil_r.
  - apply pderiv_from_padd.
Qed.

Lemma pderiv_from_pscale k c p :
  pderiv_from k (pscale c p) = pscale c (pderiv_from k p).
Proof.
  revert k. induction p as [|a p IH]; intros k; simpl.
  - reflexivity.
  - unfold pscale in IH. rewrite IH. f_equal. ring.
Qed.

Lemma pderiv_pscale c p : pderiv (pscale c p) = pscale c (pderiv p).
Proof. destruct p; simpl; [reflexivity | apply pderiv_from_pscale]. Qed.

Lemma pderiv_peval e a : pderiv (peval e a) = peval (map pderiv e) a.
Proof.
  induction e as [|c e IH]; simpl.
  - reflexivity.
  - rewrite pderiv_padd, pderiv_pscale, IH. reflexivity.
Qed.

(** [sym.diff(e, y)] is the partial derivative in [y]. *)
Lemma diff_y_correct e a b :
  derivable_pt_lim (fun t => eval e a t) b (eval (diff e sym_y) a b).
Proof.
  unfold eval. simpl. rewrite <- pderiv_peval. apply pderiv_correct.
Qed.

Lemma at_y_pprim_from k e b :
  at_y (pprim_from k e) b = pprim_from k (at_y e b).
Proof.
  revert k. induction e as [|c e IH]; intros k; simpl.
  - reflexivity.
  - rewrite IH, peval_pscale. reflexivity.
Qed.

(** Integrating in [x] and then fixing [y] is fixing [y] and then
    integrating in [x]. *)
Lemma pintegral_at_y e lo hi b :
  peval (pintegral e lo hi) b = pintegral (at_y e b) lo hi.
Proof.
  unfold pintegral. cbn [sub Expr_poly Expr_scalar].
  rewrite peval_psub.
  change (peval (peval (pprim e) hi) b) with (eval (pprim e) hi b).
  change (peval (peval (pprim e) lo) b) with (eval (pprim e) lo b).
  rewrite !eval_at_y. unfold pprim. simpl at_y.
  rewrite at_y_pprim_from. reflexivity.
Qed.

End Calculus.

(** ** The shape functions *)

(** The shape functions computed on the symbols denote, at every point, the
    shape functions computed on the numbers. *)
Lemma shape4_eval (x y h : R) :
  map (fun e => eval e x y) (shape4 (var sym_x) (var sym_y) h)
  = shape4 x y h.
Proof. rcompute. list_eq; ring. Qed.

Lemma shape4_eval_nth (x y h : R) (i : nat) :
  eval (nth i (shape4 (var sym_x) (var sym_y) h) zero) x y
  = nth i (shape4 x y h) 0.
Proof.
  rewrite <- shape4_eval.
  change 0 with (eval (zero : expr R) x y).
  rewrite (map_nth (fun e => eval e x y)). reflexivity.
Qed.

(** C3.  For every [x], [y] and every half width [h > 0], [shape4(x, y, h)]
    returns exactly the four values [(h+x)(h+y)/(4h^2)],
    [(h-x)(h+y)/(4h^2)], [(h-x)(h-y)/(4h^2)], [(h+x)(h-y)/(4h^2)], in this
    order; called on numbers it returns them, and called on the symbols it
    returns expressions whose values at [(x, y)] they are. *)
Theorem shape4_returns (x y h : R) :
  0 < h ->
  shape4 x y h =
    [ (h + x) * (h + y) / (4 * h ^ 2);
      (h - x) * (h + y) / (4 * h ^ 2);
      (h - x) * (h - y) / (4 * h ^ 2);
      (h + x) * (h - y) / (4 * h ^ 2) ]
  /\ map (fun e => eval e x y) (shape4 (var sym_x) (var sym_y) h) =
    [ (h + x) * (h + y) / (4 * h ^ 2);
      (h - x) * (h + y) / (4 * h ^ 2);
      (h - x) * (h - y) / (4 * h ^ 2);
      (h + x) * (h - y) / (4 * h ^ 2) ].
Proof.
  intros Hh.
  assert (Hnum : shape4 x y h =
    [ (h + x) * (h + y) / (4 * h ^ 2);
      (h - x) * (h + y) / (4 * h ^ 2);
      (h - x) * (h - y) / (4 * h ^ 2);
      (h + x) * (h - y) / (4 * h ^ 2) ]).
  { rcompute. list_eq; field; lra. }
  split; [exact Hnum | rewrite shape4_eval; exact Hnum].
Qed.

Lemma shape4_returns_witness :
  shape4 (1/2) (1/4) 2 = [ 45/128; 27/128; 21/128; 35/128 ].
Proof.
  destruct (shape4_returns (1/2) (1/4) 2 ltac:(lra)) as [Hn _].
  rewrite Hn. list_eq; field.
Defined.

(** C6.  For every [x], [y] and every [h > 0], the four values returned by
    [shape4(x, y, h)] add up to one. *)
Theorem shape4_partition_of_unity (x y h : R) :
  0 < h -> total (shape4 x y h) = 1.
Proof.
  intros Hh. rcompute. field. lra.
Qed.

Lemma shape4_partition_of_unity_witness : total (shape4 (1/2) (1/4) 2) = 1.
Proof. apply shape4_partition_of_unity. lra. Defined.

(** C7.  For every [h > 0], the shape function of index [i] is one at its
    own node and zero at the three others, the nodes being [(h, h)],
    [(-h, h)], [(-h, -h)], [(h, -h)] in this order. *)
Theorem shape4_kronecker (h : R) (i j : nat) :
  0 < h -> (i < 4)%nat -> (j < 4)%nat ->
  let node := nth j (nodes h) (0, 0) in
  nth i (shape4 (fst node) (snd node) h) 0 = if Nat.eqb i j then 1 else 0.
Proof.
  intros Hh Hi Hj.
  assert (Ci : (i = 0 \/ i = 1 \/ i = 2 \/ i = 3)%nat) by lia.
  assert (Cj : (j = 0 \/ j = 1 \/ j = 2 \/ j = 3)%nat) by lia.
  destruct Ci as [-> | [-> | [-> | ->]]], Cj as [-> | [-> | [-> | ->]]];
    rcompute; field; lra.
Qed.

Lemma shape4_kronecker_witness :
  nth 1 (shape4 (- 3) 3 3) 0 = 1 /\ nth 3 (shape4 (- 3) 3 3) 0 = 0.
Proof.
  split.
  - apply (shape4_kronecker 3 1 1); [lra | lia | lia].
  - apply (shape4_kronecker 3 3 1); [lra | lia | lia].
Defined.

(** ** The strain-displacement interpolator *)

(** The entries of [B] at [h = 1], evaluated: the derivatives of the four
    shape functions, as the source lays them out. *)
Example stdm4_at_1 (x y : R) :
  map (map (fun e => eval e x y)) (stdm4 sym_x sym_y 1) =
    [ [ (1 + y) / 4; 0; - (1 + y) / 4; 0; - (1 - y) / 4; 0; (1 - y) / 4; 0 ];
      [ 0; (1 + x) / 4; 0; (1 - x) / 4; 0; - (1 - x) / 4; 0; - (1 + x) / 4 ];
      [ (1 + x) / 4; (1 + y) / 4; (1 - x) / 4; - (1 + y) / 4;
        - (1 - x) / 4; - (1 - y) / 4; - (1 + x) / 4; (1 - y) / 4 ] ].
Proof. rcompute. list_eq; field. Qed.

(** C4.  For every [h > 0], [stdm4(x, y, h)] returns a matrix of three rows
    of eight entries in which, for each node [i < 4] and with
    [N = shape4(x, y, h)]: row 0 holds the derivative of [N_i] in [x] at
    column [2i] and zero at column [2i+1]; row 1 holds zero at column [2i]
    and the derivative of [N_i] in [y] at column [2i+1]; row 2 holds the
    derivative in [y] at column [2i] and the derivative in [x] at column
    [2i+1].  The entries are what [sym.diff] returns, and at every point
    [(x, y)] their values are the partial derivatives of the shape
    function. *)
Theorem stdm4_returns (h : R) :
  0 < h ->
  let N := shape4 (var sym_x) (var sym_y) h in
  let B := stdm4 sym_x sym_y h in
  nrows B = 3%nat /\
  Forall (fun row => length row = 8%nat) B /\
  forall i : nat, (i < 4)%nat ->
    let dNdx := diff (nth i N zero) sym_x in
    let dNdy := diff (nth i N zero) sym_y in
    mget B 0 (2 * i) = dNdx /\ mget B 0 (2 * i + 1) = zero /\
    mget B 1 (2 * i) = zero /\ mget B 1 (2 * i + 1) = dNdy /\
    mget B 2 (2 * i) = dNdy /\ mget B 2 (2 * i + 1) = dNdx /\
    forall x y : R,
      derivable_pt_lim (fun t => nth i (shape4 t y h) 0) x (eval dNdx x y) /\
      derivable_pt_lim (fun t => nth i (shape4 x t h) 0) y (eval dNdy x y).
Proof.
  intros Hh N B. split; [reflexivity|]. split.
  { repeat constructor. }
  intros i Hi dNdx dNdy.
  assert (Ci : (i = 0 \/ i = 1 \/ i = 2 \/ i = 3)%nat) by lia.
  repeat split.
  1-6: destruct Ci as [-> | [-> | [-> | ->]]]; reflexivity.
  - apply derivable_pt_lim_ext with (f := fun t => eval (nth i N zero) t y).
    + intros t. apply shape4_eval_nth.
    + apply diff_x_correct.
  - apply derivable_pt_lim_ext with (f := fun t => eval (nth i N zero) x t).
    + intros t. apply shape4_eval_nth.
    + apply diff_y_correct.
Qed.

Lemma stdm4_returns_witness :
  mget (stdm4 (F:=R) sym_x sym_y 2) 2 3
  = diff (nth 1 (shape4 (var sym_x) (var sym_y) 2) zero) sym_x.
Proof.
  destruct (stdm4_returns 2 ltac:(lra)) as (_ & _ & HB).
  destruct (HB 1%nat ltac:(lia)) as (_ & _ & _ & _ & _ & H23 & _).
  exact H23.
Defined.

(** ** The constitutive matrix *)

(** C5.  For every [nu] and [E] with [nu^2 <> 1], [umat(nu, E)] returns,
    with [G = E/(1-nu^2)], the matrix whose entries (0,0) and (1,1) are
    [G], whose entries (0,1) and (1,0) are [nu*G], whose entry (2,2) is
    [G*(1-nu)/2] and whose other entries are zero; the matrix is
    symmetric. *)
Theorem umat_returns (nu E : R) :
  nu ^ 2 <> 1 ->
  let G := E / (1 - nu ^ 2) in
  umat nu E =
    [ [ G; nu * G; 0 ];
      [ nu * G; G; 0 ];
      [ 0; 0; G * (1 - nu) / 2 ] ]
  /\ (forall i j : nat, (i < 3)%nat -> (j < 3)%nat ->
      mget (umat nu E) i j = mget (umat nu E) j i).
Proof.
  intros Hnu G. subst G. split.
  - rcompute. list_eq; field; simpl in Hnu; lra.
  - intros i j Hi Hj.
    assert (Ci : (i = 0 \/ i = 1 \/ i = 2)%nat) by lia.
    assert (Cj : (j = 0 \/ j = 1 \/ j = 2)%nat) by lia.
    destruct Ci as [-> | [-> | ->]], Cj as [-> | [-> | ->]]; reflexivity.
Qed.

Lemma umat_returns_witness :
  umat (1/3) (8/3) = [ [ 3; 1; 0 ]; [ 1; 3; 0 ]; [ 0; 0; 1 ] ].
Proof.
  destruct (umat_returns (1/3) (8/3) ltac:(lra)) as [Hc _].
  rewrite Hc. list_eq; field.
Defined.

(** ** The stiffness matrix in closed form *)

Lemma h_factor_one (h : R) : h <> 0 -> h_factor h = 1.
Proof. intros Hh. unfold h_factor. field. exact Hh. Qed.

(** Every entry of [K], computed by the loops, is the closed form times
    [h_factor h]; no assumption on the parameters. *)
Lemma K_factor (E nu h : R) :
  K E nu h = map (map (Rmult (h_factor h))) (K_closed E nu).
Proof.
  rcompute.
  generalize (1 / (4 * (h * (h * 1)))) (E / (1 - nu * (nu * 1))).
  intros q g.
  list_eq; field.
Qed.

Lemma K_closed_form (E nu h : R) :
  h <> 0 -> K E nu h = K_closed E nu.
Proof.
  intros Hh. rewrite K_factor, (h_factor_one h Hh).
  unfold K_closed, K_of. cbv [map]. list_eq; ring.
Qed.

Lemma mget_scaled (w : R) (M : matrix R) (i j : nat) :
  mget (map (map (Rmult w)) M) i j = w * mget M i j.
Proof.
  unfold mget.
  change (@nil R) with (map (Rmult w) []).
  rewrite (map_nth (map (Rmult w))).
  replace (@zero R R _) with (w * 0) at 1 by (simpl; ring).
  rewrite (map_nth (Rmult w)). reflexivity.
Qed.

Lemma K_of_symmetric (g c s : R) (i j : nat) :
  (i < 8)%nat -> (j < 8)%nat ->
  mget (K_of g c s) i j = mget (K_of g c s) j i.
Proof.
  intros Hi Hj.
  do 8 (destruct i as [|i]; [do 8 (destruct j as [|j]; [reflexivity|]); lia|]).
  lia.
Qed.

Lemma K_of_linear (lam g c s : R) :
  K_of (lam * g) (lam * c) (lam * s) = map (map (Rmult lam)) (K_of g c s).
Proof. cbv [K_of map]. list_eq; field. Qed.

(** C2.  For every [E], [nu] and [h > 0], the matrix [K] obtained by
    integrating [B.T*C*B] entry by entry over [-h,h] x [-h,h] is
    symmetric: [K[i,j] = K[j,i]] for all [i, j < 8]. *)
Theorem K_symmetric (E nu h : R) (i j : nat) :
  0 < h -> (i < 8)%nat -> (j < 8)%nat ->
  mget (K E nu h) i j = mget (K E nu h) j i.
Proof.
  intros Hh Hi Hj. rewrite K_factor, !mget_scaled.
  unfold K_closed. rewrite (K_of_symmetric _ _ _ i j Hi Hj). reflexivity.
Qed.

Lemma K_symmetric_witness :
  mget (K 5 (1/4) 2) 1 6 = mget (K 5 (1/4) 2) 6 1.
Proof. apply K_symmetric; [lra | lia | lia]. Defined.

(** C8.  For fixed [nu] and [h], [K] is homogeneous of degree one in the
    Young modulus: for every factor [lam], [K(lam*E, nu, h)] is
    [lam * K(E, nu, h)], entry by entry. *)
Theorem K_homogeneous (E nu h lam : R) :
  K (lam * E) nu h = map (map (Rmult lam)) (K E nu h).
Proof.
  rewrite !K_factor. unfold K_closed.
  replace (lam * E / (1 - nu ^ 2)) with (lam * (E / (1 - nu ^ 2)))
    by (unfold Rdiv; ring).
  generalize (E / (1 - nu ^ 2)). intros g.
  replace (nu * (lam * g)) with (lam * (nu * g)) by ring.
  replace (lam * g * ((1 - nu) / 2)) with (lam * (g * ((1 - nu) / 2)))
    by ring.
  rewrite K_of_linear.
  generalize (K_of g (nu * g) (g * ((1 - nu) / 2))). intros M.
  rewrite !map_map. apply map_ext. intros row.
  rewrite !map_map. apply map_ext. intros a. ring.
Qed.

(** C10.  For every [E], every [nu] with [nu^2 <> 1] and every [h > 0], the
    integrated matrix does not depend on [h]: [K(E, nu, h) = K(E, nu, 1)]. *)
Theorem K_independent_of_h (E nu h : R) :
  nu ^ 2 <> 1 -> 0 < h -> K E nu h = K E nu 1.
Proof.
  intros _ Hh. rewrite !K_closed_form by lra. reflexivity.
Qed.

Lemma K_independent_of_h_witness : K (8/3) (1/3) 7 = K (8/3) (1/3) 1.
Proof. apply K_independent_of_h; lra. Defined.

(** ** The worked example *)

Lemma kk_value : kk = kk_exact.
Proof.
  unfold kk. rewrite K_closed_form by (simpl; lra).
  cbv [K_closed K_of kk_exact EE nuu fdiv ofZ Scalar_R].
  list_eq; field.
Qed.

Lemma powerRZ_10_ge_1 (n : Z) : (0 <= n)%Z -> 1 <= powerRZ 10 n.
Proof.
  intros Hn. destruct n as [|p|p]; simpl.
  - lra.
  - apply pow_R1_Rle. lra.
  - lia.
Qed.

Lemma powerRZ_10_gap (e : Z) :
  powerRZ 10 e <= 1 / 100 \/ 1 / 10 <= powerRZ 10 e.
Proof.
  assert (Hp : 0 < powerRZ 10 e) by (apply powerRZ_lt; lra).
  destruct (Z_le_gt_dec e (-2)) as [He | He].
  - left.
    assert (Hs : powerRZ 10 (e + (-2 - e)) = 1 / 100).
    { replace (e + (-2 - e))%Z with (-2)%Z by lia. simpl. lra. }
    rewrite powerRZ_add in Hs by lra.
    pose proof (powerRZ_10_ge_1 (-2 - e) ltac:(lia)). nra.
  - right.
    assert (Hs : powerRZ 10 (-1 + (e + 1)) = powerRZ 10 e).
    { f_equal. lia. }
    rewrite powerRZ_add in Hs by lra.
    pose proof (powerRZ_10_ge_1 (e + 1) ltac:(lia)).
    simpl powerRZ in Hs at 1. nra.
Qed.

(** The relation tells a right third digit from a wrong one. *)
Example agrees3_discriminates : ~ agrees3 (4 / 3) 1.34.
Proof.
  intros [[Hr _] | (m & e & Hm & Hr & Hd)]; [lra|].
  assert (Hp : 0 < powerRZ 10 e) by (apply powerRZ_lt; lra).
  assert (Hd' : 1 / 150 <= powerRZ 10 e / 2).
  { unfold Rabs in Hd. destruct (Rcase_abs _) in Hd; lra. }
  destruct (powerRZ_10_gap e) as [Hs | Hb]; [lra|].
  assert (Hm' : (m <= -100 \/ 100 <= m)%Z) by lia.
  destruct Hm' as [Hn | Hn]; apply IZR_le in Hn; nra.
Qed.

(** C1.  With [nu = 1/3], [E = 8/3] and [h = 1] substituted into [K], every
    entry of the resulting 8 by 8 matrix agrees with the printed reference
    matrix to three significant digits; in particular [K[0,0]] with 1.33,
    [K[0,1]] with 0.5, [K[0,2]] with -0.833, [K[0,4]] with -0.667 and
    [K[0,6]] with 0.167. *)
Theorem kk_matches_printed :
  Forall2 (Forall2 agrees3) kk kk_printed
  /\ agrees3 (mget kk 0 0) 1.33
  /\ agrees3 (mget kk 0 1) 0.5
  /\ agrees3 (mget kk 0 2) (-0.833)
  /\ agrees3 (mget kk 0 4) (-0.667)
  /\ agrees3 (mget kk 0 6) 0.167.
Proof.
  rewrite kk_value. unfold kk_exact, kk_printed, mget. simpl nth.
  repeat split.
  - repeat (apply Forall2_cons || apply Forall2_nil); agree.
  - agree.
  - agree.
  - agree.
  - agree.
  - agree.
Qed.

(** ** Positive semi-definiteness and the rigid body modes *)

Lemma length8 (v : list R) :
  length v = 8%nat ->
  exists u1 v1 u2 v2 u3 v3 u4 v4, v = [u1; v1; u2; v2; u3; v3; u4; v4].
Proof.
  intros H.
  do 8 (destruct v as [|? v]; [discriminate H|]).
  destruct v; [|discriminate H].
  repeat eexists.
Qed.

(** The energy of a displacement is a sum of squares of its strain
    modes. *)
Lemma quad_K_of (g nu : R) (u1 v1 u2 v2 u3 v3 u4 v4 : R) :
  quad (K_of g (nu * g) (g * ((1 - nu) / 2)))
       [u1; v1; u2; v2; u3; v3; u4; v4]
  = g / 4 *
    ( (1 + nu) / 2 * ((u1 - u2 - u3 + u4) + (v1 + v2 - v3 - v4)) ^ 2
    + (1 - nu) / 2 * ((u1 - u2 - u3 + u4) - (v1 + v2 - v3 - v4)) ^ 2
    + (3 - nu) / 6 * (u1 - u2 + u3 - u4) ^ 2
    + (3 - nu) / 6 * (v1 - v2 + v3 - v4) ^ 2
    + (1 - nu) / 2 * ((u1 + u2 - u3 - u4) + (v1 - v2 - v3 + v4)) ^ 2 ).
Proof. rcompute. field. Qed.

Lemma axial_stiffness_pos (E nu : R) :
  0 < E -> -1 < nu < 1 -> 0 < E / (1 - nu ^ 2).
Proof.
  intros HE Hnu. apply Rdiv_lt_0_compat; [exact HE | nra].
Qed.

Lemma sq_zero (a : R) : a ^ 2 <= 0 -> a = 0.
Proof. intros H. nra. Qed.

Lemma rigid_components (h a b c : R) :
  rigid h a b c =
    [ a - c * h; b + c * h; a - c * h; b - c * h;
      a + c * h; b - c * h; a + c * h; b + c * h ].
Proof. rcompute. list_eq; ring. Qed.

Lemma mvec_K_of_rigid (g c s h a b r : R) :
  mvec (K_of g c s) (rigid h a b r) = repeat 0 8.
Proof. rewrite rigid_components. rcompute. list_eq; field. Qed.

(** The five strain modes vanish exactly on the rigid motions. *)
Lemma strain_free_rigid (h u1 v1 u2 v2 u3 v3 u4 v4 : R) :
  0 < h ->
  (u1 - u2 - u3 + u4) + (v1 + v2 - v3 - v4) = 0 ->
  (u1 - u2 - u3 + u4) - (v1 + v2 - v3 - v4) = 0 ->
  u1 - u2 + u3 - u4 = 0 ->
  v1 - v2 + v3 - v4 = 0 ->
  (u1 + u2 - u3 - u4) + (v1 - v2 - v3 + v4) = 0 ->
  [u1; v1; u2; v2; u3; v3; u4; v4]
  = rigid h ((u1 + u3) / 2) ((v1 + v2) / 2) ((u3 - u1) / (2 * h)).
Proof.
  intros Hh H1 H2 H3 H4 H5. rewrite rigid_components.
  assert (Hc : (u3 - u1) / (2 * h) * h = (u3 - u1) / 2) by (field; lra).
  rewrite Hc. list_eq; lra.
Qed.

Lemma quad_zero_strain_free (g nu : R) (u1 v1 u2 v2 u3 v3 u4 v4 : R) :
  0 < g -> -1 < nu < 1 ->
  quad (K_of g (nu * g) (g * ((1 - nu) / 2)))
       [u1; v1; u2; v2; u3; v3; u4; v4] = 0 ->
  (u1 - u2 - u3 + u4) + (v1 + v2 - v3 - v4) = 0 /\
  (u1 - u2 - u3 + u4) - (v1 + v2 - v3 - v4) = 0 /\
  u1 - u2 + u3 - u4 = 0 /\
  v1 - v2 + v3 - v4 = 0 /\
  (u1 + u2 - u3 - u4) + (v1 - v2 - v3 + v4) = 0.
Proof.
  intros Hg Hnu. rewrite quad_K_of.
  set (s1 := (u1 - u2 - u3 + u4) + (v1 + v2 - v3 - v4)).
  set (s2 := (u1 - u2 - u3 + u4) - (v1 + v2 - v3 - v4)).
  set (s3 := u1 - u2 + u3 - u4).
  set (s4 := v1 - v2 + v3 - v4).
  set (s5 := (u1 + u2 - u3 - u4) + (v1 - v2 - v3 + v4)).
  intros HQ.
  pose proof (pow2_ge_0 s1) as P1. pose proof (pow2_ge_0 s2) as P2.
  pose proof (pow2_ge_0 s3) as P3. pose proof (pow2_ge_0 s4) as P4.
  pose proof (pow2_ge_0 s5) as P5.
  assert (W1 : 0 < (1 + nu) / 2) by lra.
  assert (W2 : 0 < (1 - nu) / 2) by lra.
  assert (W3 : 0 < (3 - nu) / 6) by lra.
  assert (Hsum : (1 + nu) / 2 * s1 ^ 2 + (1 - nu) / 2 * s2 ^ 2
                 + (3 - nu) / 6 * s3 ^ 2 + (3 - nu) / 6 * s4 ^ 2
                 + (1 - nu) / 2 * s5 ^ 2 = 0).
  { apply Rmult_integral in HQ. destruct HQ as [HQ | HQ]; [lra | exact HQ]. }
  pose proof (Rmult_le_pos _ _ (Rlt_le _ _ W1) P1) as Q1.
  pose proof (Rmult_le_pos _ _ (Rlt_le _ _ W2) P2) as Q2.
  pose proof (Rmult_le_pos _ _ (Rlt_le _ _ W3) P3) as Q3.
  pose proof (Rmult_le_pos _ _ (Rlt_le _ _ W3) P4) as Q4.
  pose proof (Rmult_le_pos _ _ (Rlt_le _ _ W2) P5) as Q5.
  assert (Z1 : s1 ^ 2 <= 0).
  { apply (Rmult_le_reg_l ((1 + nu) / 2)); [exact W1 | lra]. }
  assert (Z2 : s2 ^ 2 <= 0).
  { apply (Rmult_le_reg_l ((1 - nu) / 2)); [exact W2 | lra]. }
  assert (Z3 : s3 ^ 2 <= 0).
  { apply (Rmult_le_reg_l ((3 - nu) / 6)); [exact W3 | lra]. }
  assert (Z4 : s4 ^ 2 <= 0).
  { apply (Rmult_le_reg_l ((3 - nu) / 6)); [exact W3 | lra]. }
  assert (Z5 : s5 ^ 2 <= 0).
  { apply (Rmult_le_reg_l ((1 - nu) / 2)); [exact W2 | lra]. }
  repeat split; apply sq_zero; assumption.
Qed.

Lemma quad_K_of_nonneg (g nu : R) (v : list R) :
  0 < g -> -1 < nu < 1 -> length v = 8%nat ->
  0 <= quad (K_of g (nu * g) (g * ((1 - nu) / 2))) v.
Proof.
  intros Hg Hnu Hv.
  destruct (length8 v Hv) as (u1 & v1 & u2 & v2 & u3 & v3 & u4 & v4 & ->).
  rewrite quad_K_of.
  apply Rmult_le_pos; [lra|].
  repeat apply Rplus_le_le_0_compat;
    (apply Rmult_le_pos; [lra | apply pow2_ge_0]).
Qed.

Lemma quad_eigen (M : matrix R) (lam : R) (u1 v1 u2 v2 u3 v3 u4 v4 : R) :
  mvec M [u1; v1; u2; v2; u3; v3; u4; v4]
  = vscale lam [u1; v1; u2; v2; u3; v3; u4; v4] ->
  quad M [u1; v1; u2; v2; u3; v3; u4; v4]
  = lam * (u1 ^ 2 + v1 ^ 2 + u2 ^ 2 + v2 ^ 2
           + u3 ^ 2 + v3 ^ 2 + u4 ^ 2 + v4 ^ 2).
Proof.
  intros HM. unfold quad. rewrite HM. rcompute. ring.
Qed.

(** C9.  For valid parameters ([E > 0], [-1 < nu < 1], [h > 0]; the sample
    values [E = 8/3], [nu = 1/3], [h = 1] among them) the 8 by 8 matrix [K]
    is positive semi-definite: [v^T K v >= 0] for every [v] of eight reals,
    so that every eigenvalue is non-negative; and it has exactly three zero
    eigenvalues: its null space is spanned by the two rigid translations
    and the rigid rotation, which are linearly independent.  [K] being
    symmetric, the dimension of the null space is the multiplicity of the
    eigenvalue zero, and the rank is five. *)
Theorem K_psd_rigid_modes (E nu h : R) :
  0 < E -> -1 < nu < 1 -> 0 < h ->
  (forall v, length v = 8%nat -> 0 <= quad (K E nu h) v)
  /\ (forall v lam, length v = 8%nat -> v <> repeat 0 8 ->
        mvec (K E nu h) v = vscale lam v -> 0 <= lam)
  /\ (forall v, length v = 8%nat ->
        (mvec (K E nu h) v = repeat 0 8 <->
         exists a b c, v = rigid h a b c))
  /\ (forall a b c, rigid h a b c = repeat 0 8 -> a = 0 /\ b = 0 /\ c = 0).
Proof.
  intros HE Hnu Hh.
  rewrite K_closed_form by lra. unfold K_closed.
  pose proof (axial_stiffness_pos E nu HE Hnu) as Hg.
  set (g := E / (1 - nu ^ 2)) in *.
  split; [|split; [|split]].
  - intros v Hv. apply quad_K_of_nonneg; assumption.
  - intros v lam Hv Hnz Hev.
    pose proof (quad_K_of_nonneg g nu v Hg Hnu Hv) as Hq.
    destruct (length8 v Hv) as (u1 & v1 & u2 & v2 & u3 & v3 & u4 & v4 & ->).
    rewrite (quad_eigen _ lam _ _ _ _ _ _ _ _ Hev) in Hq.
    destruct (Rle_lt_dec 0 lam) as [Hl | Hl]; [exact Hl | exfalso].
    apply Hnz.
    pose proof (pow2_ge_0 u1). pose proof (pow2_ge_0 v1).
    pose proof (pow2_ge_0 u2). pose proof (pow2_ge_0 v2).
    pose proof (pow2_ge_0 u3). pose proof (pow2_ge_0 v3).
    pose proof (pow2_ge_0 u4). pose proof (pow2_ge_0 v4).
    assert (HS : u1 ^ 2 + v1 ^ 2 + u2 ^ 2 + v2 ^ 2
                 + u3 ^ 2 + v3 ^ 2 + u4 ^ 2 + v4 ^ 2 <= 0) by nra.
    simpl repeat. list_eq; apply sq_zero; lra.
  - intros v Hv. split.
    + intros Hker.
      destruct (length8 v Hv) as (u1 & v1 & u2 & v2 & u3 & v3 & u4 & v4 & ->).
      assert (HQ : quad (K_of g (nu * g) (g * ((1 - nu) / 2)))
                        [u1; v1; u2; v2; u3; v3; u4; v4] = 0).
      { unfold quad. rewrite Hker. rcompute. ring. }
      destruct (quad_zero_strain_free g nu _ _ _ _ _ _ _ _ Hg Hnu HQ)
        as (H1 & H2 & H3 & H4 & H5).
      eexists _, _, _.
      apply (strain_free_rigid h _ _ _ _ _ _ _ _ Hh H1 H2 H3 H4 H5).
    + intros (a & b & c & ->). apply mvec_K_of_rigid.
  - intros a b c Hz. rewrite rigid_components in Hz. simpl repeat in Hz.
    injection Hz as E1 E2 E3 E4 E5 E6 E7 E8.
    assert (Ha : a = 0) by lra.
    assert (Hb : b = 0) by lra.
    assert (Hc : c * h = 0) by lra.
    repeat split; try assumption.
    apply Rmult_integral in Hc. destruct Hc; [assumption | lra].
Qed.

Lemma K_psd_rigid_modes_witness :
  0 <= quad (K (8/3) (1/3) 1) [1; 0; 0; 0; 0; 0; 0; 0]
  /\ mvec (K (8/3) (1/3) 1) (rotation 1) = repeat 0 8.
Proof.
  destruct (K_psd_rigid_modes (8/3) (1/3) 1 ltac:(lra) ltac:(lra) ltac:(lra))
    as (Hpsd & _ & Hker & _).
  split.
  - apply Hpsd. reflexivity.
  - apply Hker.
    + reflexivity.
    + exists 0, 0, 1. rcompute. list_eq; ring.
Defined.

(** * Further properties of the routines *)

(** ** The shape functions, again *)

(** X1.  For every [h > 0], interpolating with the values of [shape4(x, y, h)]
    the nodal values of a bilinear field [a + b x + c y + d x y] gives back
    the field at [(x, y)]: the element reproduces every bilinear field, its
    own coordinates among them. *)
Theorem shape4_reproduces_bilinear (a b c d x y h : R) :
  0 < h ->
  dot (shape4 x y h) (nodal (bilinear a b c d) h) = bilinear a b c d x y.
Proof. intros Hh. rcompute. field. lra. Qed.

Lemma shape4_reproduces_bilinear_witness :
  dot (shape4 (1/2) (1/4) 2) (nodal (bilinear 1 2 3 4) 2)
  = bilinear 1 2 3 4 (1/2) (1/4).
Proof. apply shape4_reproduces_bilinear. lra. Defined.

Lemma ratio_in_unit (n d : R) : 0 < d -> 0 <= n <= d -> 0 <= n / d <= 1.
Proof.
  intros Hd [H0 H1]. split.
  - apply Rmult_le_pos; [exact H0 | left; apply Rinv_0_lt_compat; exact Hd].
  - apply (Rmult_le_reg_r d); [exact Hd|].
    unfold Rdiv. rewrite Rmult_assoc, Rinv_l by lra. lra.
Qed.

Lemma product_in_square (p q h : R) :
  0 <= p <= 2 * h -> 0 <= q <= 2 * h -> 0 <= p * q <= 4 * h ^ 2.
Proof. intros Hp Hq. split; nra. Qed.

Lemma shape4_quotients (x y h : R) :
  h <> 0 ->
  shape4 x y h =
    [ (h + x) * (h + y) / (4 * h ^ 2);
      (h - x) * (h + y) / (4 * h ^ 2);
      (h - x) * (h - y) / (4 * h ^ 2);
      (h + x) * (h - y) / (4 * h ^ 2) ].
Proof. intros Hh. rcompute. list_eq; field; exact Hh. Qed.

(** X2.  For [h > 0] and a point [(x, y)] of the element, [-h <= x <= h]
    and [-h <= y <= h], each of the four values of [shape4(x, y, h)] lies
    between zero and one. *)
Theorem shape4_between_0_and_1 (x y h : R) :
  0 < h -> - h <= x <= h -> - h <= y <= h ->
  Forall (fun N => 0 <= N <= 1) (shape4 x y h).
Proof.
  intros Hh Hx Hy.
  rewrite shape4_quotients by lra.
  assert (Hd : 0 < 4 * h ^ 2) by nra.
  repeat (apply Forall_cons;
          [apply ratio_in_unit;
           [exact Hd | apply product_in_square; lra]|]).
  apply Forall_nil.
Qed.

Lemma shape4_between_0_and_1_witness :
  Forall (fun N => 0 <= N <= 1) (shape4 (-2) (1/4) 2).
Proof. apply shape4_between_0_and_1; lra. Defined.

(** X3.  The shape functions have no dimension: scaling [x], [y] and [h] by
    the same positive factor leaves the values of [shape4] as they are. *)
Theorem shape4_scale_invariant (x y h lam : R) :
  0 < h -> 0 < lam ->
  shape4 (lam * x) (lam * y) (lam * h) = shape4 x y h.
Proof. intros Hh Hl. rcompute. list_eq; field; lra. Qed.

Lemma shape4_scale_invariant_witness :
  shape4 (10 * (1/2)) (10 * (1/4)) (10 * 2) = shape4 (1/2) (1/4) 2.
Proof. apply shape4_scale_invariant; lra. Defined.

(** X4.  For [h > 0], the matrix returned by [stdm4], evaluated at [(x, y)]
    and applied to the nodal displacements of a bilinear displacement
    field, gives the exact strains of that field there: the derivative of
    [u] in [x], the derivative of [v] in [y], and the sum of the two cross
    derivatives.  Rigid motions and constant strains are particular
    cases. *)
Theorem stdm4_exact_strain (a0 a1 a2 a3 b0 b1 b2 b3 x y h : R) :
  0 < h ->
  mvec (B_at h x y)
       (nodal_disp (bilinear a0 a1 a2 a3) (bilinear b0 b1 b2 b3) h)
  = [ a1 + a3 * y; b2 + b3 * x; (a2 + a3 * x) + (b1 + b3 * y) ].
Proof. intros Hh. rcompute. list_eq; field; lra. Qed.

Lemma stdm4_exact_strain_witness :
  mvec (B_at 2 (1/2) (1/4))
       (nodal_disp (bilinear 0 1 2 3) (bilinear 0 4 5 6) 2)
  = [ 1 + 3 * (1/4); 5 + 6 * (1/2); (2 + 3 * (1/2)) + (4 + 6 * (1/4)) ].
Proof. apply stdm4_exact_strain. lra. Defined.

(** X5.  Scaling [x], [y] and [h] by the same positive factor [lam] divides
    every entry of the matrix of [stdm4] by [lam]. *)
Theorem stdm4_scaling (x y h lam : R) :
  0 < h -> 0 < lam ->
  B_at (lam * h) (lam * x) (lam * y)
  = map (map (Rmult (/ lam))) (B_at h x y).
Proof. intros Hh Hl. rcompute. list_eq; field; lra. Qed.

Lemma stdm4_scaling_witness :
  B_at (3 * 2) (3 * 1) (3 * (1/2)) = map (map (Rmult (/ 3))) (B_at 2 1 (1/2)).
Proof. apply stdm4_scaling; lra. Defined.

(** ** The constitutive matrix, again *)

Lemma quad_umat (nu E e1 e2 e3 : R) :
  quad (umat nu E) [e1; e2; e3]
  = E / (1 - nu ^ 2) *
    ( (1 + nu) / 2 * (e1 + e2) ^ 2
    + (1 - nu) / 2 * (e1 - e2) ^ 2
    + (1 - nu) / 2 * e3 ^ 2 ).
Proof.
  rcompute. generalize (E / (1 - nu * (nu * 1))). intros g. field.
Qed.

(** X6.  For [E > 0] and [-1 < nu < 1] the matrix returned by [umat(nu, E)]
    is positive definite: its quadratic form is positive on every strain
    other than zero. *)
Theorem umat_positive_definite (nu E e1 e2 e3 : R) :
  0 < E -> -1 < nu < 1 ->
  [e1; e2; e3] <> [0; 0; 0] ->
  0 < quad (umat nu E) [e1; e2; e3].
Proof.
  intros HE Hnu Hne. rewrite quad_umat.
  pose proof (axial_stiffness_pos E nu HE Hnu) as Hg.
  apply Rmult_lt_0_compat; [exact Hg|].
  pose proof (pow2_ge_0 (e1 + e2)) as P1.
  pose proof (pow2_ge_0 (e1 - e2)) as P2.
  pose proof (pow2_ge_0 e3) as P3.
  assert (W1 : 0 < (1 + nu) / 2) by lra.
  assert (W2 : 0 < (1 - nu) / 2) by lra.
  pose proof (Rmult_le_pos _ _ (Rlt_le _ _ W1) P1) as Q1.
  pose proof (Rmult_le_pos _ _ (Rlt_le _ _ W2) P2) as Q2.
  pose proof (Rmult_le_pos _ _ (Rlt_le _ _ W2) P3) as Q3.
  destruct (Rle_lt_dec
              ((1 + nu) / 2 * (e1 + e2) ^ 2 + (1 - nu) / 2 * (e1 - e2) ^ 2
               + (1 - nu) / 2 * e3 ^ 2) 0) as [Hz | Hpos]; [|exact Hpos].
  exfalso. apply Hne.
  assert (Z1 : (e1 + e2) ^ 2 <= 0).
  { apply (Rmult_le_reg_l ((1 + nu) / 2)); [exact W1 | lra]. }
  assert (Z2 : (e1 - e2) ^ 2 <= 0).
  { apply (Rmult_le_reg_l ((1 - nu) / 2)); [exact W2 | lra]. }
  assert (Z3 : e3 ^ 2 <= 0).
  { apply (Rmult_le_reg_l ((1 - nu) / 2)); [exact W2 | lra]. }
  apply sq_zero in Z1, Z2, Z3.
  list_eq; lra.
Qed.

Lemma umat_positive_definite_witness :
  0 < quad (umat (1/3) (8/3)) [1; -1; 0].
Proof.
  apply umat_positive_definite; [lra | lra |].
  intros H. simpl in H. injection H. intros. lra.
Defined.

(** X7.  For [E <> 0] and [nu^2 <> 1] the matrix returned by [umat(nu, E)]
    is invertible, and its inverse is the plane stress compliance
    [1/E * [[1, -nu, 0], [-nu, 1, 0], [0, 0, 2(1+nu)]]]. *)
Theorem umat_compliance (nu E : R) :
  E <> 0 -> nu ^ 2 <> 1 ->
  mmul (umat nu E) (compliance nu E) = identity3
  /\ mmul (compliance nu E) (umat nu E) = identity3.
Proof.
  intros HE Hnu.
  assert (Hd : 1 - nu * nu <> 0) by (simpl in Hnu; lra).
  split; rcompute; list_eq; field; split; assumption.
Qed.

Lemma umat_compliance_witness :
  mmul (umat (1/3) (8/3)) (compliance (1/3) (8/3)) = identity3.
Proof. apply (umat_compliance (1/3) (8/3)); lra. Defined.

(** ** The integrand *)

(** X8.  The symbolic product [K_int = B.T*C*B], evaluated at a point
    [(x, y)], is the product of the matrices evaluated there: multiplying
    the expressions and substituting commute. *)
Theorem K_int_pointwise (E nu h x y : R) :
  K_int_at E nu h x y
  = mmul (mmul (transpose (B_at h x y)) (umat nu E)) (B_at h x y).
Proof.
  rcompute.
  generalize (1 / (4 * (h * (h * 1)))) (E / (1 - nu * (nu * 1))).
  intros q g.
  list_eq; field.
Qed.

Lemma K_entry (E nu h : R) (i j : nat) :
  (i < 8)%nat -> (j < 8)%nat ->
  mget (K E nu h) i j
  = integrate (mget (K_int E nu h) i j) (- h) h (- h) h.
Proof.
  intros Hi Hj.
  do 8 (destruct i as [|i]; [do 8 (destruct j as [|j]; [reflexivity|]); lia|]).
  lia.
Qed.

(** At every point the integrand is the quadratic form of [C] on the
    strains. *)
Lemma quad_K_int_at (E nu h x y : R) (v : list R) :
  length v = 8%nat ->
  quad (K_int_at E nu h x y) v = quad (umat nu E) (mvec (B_at h x y) v).
Proof.
  intros Hv.
  destruct (length8 v Hv) as (u1 & v1 & u2 & v2 & u3 & v3 & u4 & v4 & ->).
  rcompute.
  generalize (1 / (4 * (h * (h * 1)))) (E / (1 - nu * (nu * 1))).
  intros q g. field.
Qed.

(** X9.  At every point [(x, y)] and for all parameters the integrand
    [K_int] is a symmetric matrix. *)
Theorem K_int_symmetric (E nu h x y : R) (i j : nat) :
  (i < 8)%nat -> (j < 8)%nat ->
  mget (K_int_at E nu h x y) i j = mget (K_int_at E nu h x y) j i.
Proof.
  intros Hi Hj.
  do 8 (destruct i as [|i];
        [do 8 (destruct j as [|j];
               [rcompute;
                generalize (1 / (4 * (h * (h * 1))))
                           (E / (1 - nu * (nu * 1)));
                intros q g; field|]); lia|]).
  lia.
Qed.

Lemma K_int_symmetric_witness :
  mget (K_int_at (8/3) (1/3) 1 (1/2) (1/4)) 0 3
  = mget (K_int_at (8/3) (1/3) 1 (1/2) (1/4)) 3 0.
Proof. apply K_int_symmetric; lia. Defined.

(** X10.  For [E > 0] and [-1 < nu < 1] the integrand [K_int] is positive
    semi-definite at every point [(x, y)]: the strain energy density of any
    nodal displacement is non-negative. *)
Theorem K_int_nonnegative (E nu h x y : R) (v : list R) :
  0 < E -> -1 < nu < 1 -> length v = 8%nat ->
  0 <= quad (K_int_at E nu h x y) v.
Proof.
  intros HE Hnu Hv. rewrite (quad_K_int_at E nu h x y v Hv).
  assert (L3 : length (mvec (B_at h x y) v) = 3%nat) by reflexivity.
  destruct (mvec (B_at h x y) v) as [|e1 [|e2 [|e3 [|e4 l]]]];
    try discriminate L3.
  rewrite quad_umat.
  pose proof (axial_stiffness_pos E nu HE Hnu) as Hg.
  apply Rmult_le_pos; [lra|].
  repeat apply Rplus_le_le_0_compat;
    (apply Rmult_le_pos; [lra | apply pow2_ge_0]).
Qed.

Lemma K_int_nonnegative_witness :
  0 <= quad (K_int_at (8/3) (1/3) 1 (1/2) (1/4)) [1; 0; 0; 2; 0; 0; -1; 0].
Proof. apply K_int_nonnegative; [lra | lra | reflexivity]. Defined.

(** ** Gauss quadrature *)

Lemma length_le_4 {A : Type} (l : list A) :
  (length l <= 4)%nat ->
  l = [] \/ (exists a, l = [a]) \/ (exists a b, l = [a; b])
  \/ (exists a b c, l = [a; b; c]) \/ (exists a b c d, l = [a; b; c; d]).
Proof.
  intros H.
  destruct l as [|a [|b [|c [|d [|e l]]]]]; simpl in H; try lia; eauto 10.
Qed.

(** The two-point Gauss rule is exact up to degree three. *)
Lemma gauss_two_points (p : poly R) (h r : R) :
  3 * r ^ 2 = 1 -> (length p <= 4)%nat ->
  pintegral p (- h) h = h * (peval p (r * h) + peval p (- (r * h))).
Proof.
  intros Hr Hp.
  assert (Hr' : r * r = 1 / 3) by lra.
  destruct (length_le_4 p Hp)
    as [-> | [(a & ->) | [(a & b & ->) | [(a & b & c & ->)
                                         | (a & b & c & d & ->)]]]];
    rcompute.
  - ring.
  - field.
  - field.
  - replace (a + r * h * (b + r * h * (c + r * h * 0)) +
             (a + - (r * h) * (b + - (r * h) * (c + - (r * h) * 0))))
      with (2 * a + 2 * c * h * h * (r * r)) by ring.
    rewrite Hr'. field.
  - replace (a + r * h * (b + r * h * (c + r * h * (d + r * h * 0))) +
             (a + - (r * h) * (b + - (r * h) * (c + - (r * h) * (d + - (r * h) * 0)))))
      with (2 * a + 2 * c * h * h * (r * r)) by ring.
    rewrite Hr'. field.
Qed.

Lemma mget_K_int_at (E nu h x y : R) (i j : nat) :
  mget (K_int_at E nu h x y) i j = eval (mget (K_int E nu h) i j) x y.
Proof.
  unfold K_int_at, mget.
  change (@nil R) with (map (fun e : expr R => eval e x y) []).
  rewrite (map_nth (map (fun e : expr R => eval e x y))).
  change (@zero R R _) with (eval (zero : expr R) x y).
  rewrite (map_nth (fun e : expr R => eval e x y)). reflexivity.
Qed.

(** The two by two Gauss rule, on an expression of degree at most three in
    each variable. *)
Lemma gauss_two_by_two (e : expr R) (h r : R) :
  3 * r ^ 2 = 1 ->
  (length e <= 4)%nat -> (length (pintegral e (- h) h) <= 4)%nat ->
  integrate e (- h) h (- h) h
  = h * h * (eval e (r * h) (r * h) + eval e (- (r * h)) (r * h)
             + eval e (r * h) (- (r * h)) + eval e (- (r * h)) (- (r * h))).
Proof.
  intros Hr He Hi. unfold integrate.
  rewrite (gauss_two_points _ h r Hr Hi).
  rewrite !pintegral_at_y.
  assert (La : forall b, (length (at_y e b) <= 4)%nat).
  { intros b. unfold at_y. rewrite length_map. exact He. }
  rewrite !(gauss_two_points _ h r Hr (La _)).
  rewrite <- !eval_at_y. ring.
Qed.

Lemma K_int_degree (E nu h : R) (i j : nat) :
  (i < 8)%nat -> (j < 8)%nat ->
  (length (mget (K_int E nu h) i j) <= 4)%nat
  /\ (length (pintegral (mget (K_int E nu h) i j) (- h) h) <= 4)%nat.
Proof.
  intros Hi Hj.
  do 8 (destruct i as [|i];
        [do 8 (destruct j as [|j]; [rcompute; lia|]); lia|]).
  lia.
Qed.

(** X11.  The two by two Gauss rule integrates [K_int] exactly: with
    [3 r^2 = 1], every entry of [K] is [h^2] times the sum of the entry of
    [K_int] at the four points [(+-r h, +-r h)]. *)
Theorem K_gauss_two_by_two (E nu h r : R) (i j : nat) :
  3 * r ^ 2 = 1 -> (i < 8)%nat -> (j < 8)%nat ->
  mget (K E nu h) i j
  = h * h * (mget (K_int_at E nu h (r * h) (r * h)) i j
             + mget (K_int_at E nu h (- (r * h)) (r * h)) i j
             + mget (K_int_at E nu h (r * h) (- (r * h))) i j
             + mget (K_int_at E nu h (- (r * h)) (- (r * h))) i j).
Proof.
  intros Hr Hi Hj.
  destruct (K_int_degree E nu h i j Hi Hj) as [H1 H2].
  rewrite (K_entry E nu h i j Hi Hj), !mget_K_int_at.
  apply gauss_two_by_two; assumption.
Qed.

Lemma K_gauss_two_by_two_witness :
  mget (K (8/3) (1/3) 1) 0 0
  = 1 * 1 * (mget (K_int_at (8/3) (1/3) 1 (sqrt 3 / 3 * 1) (sqrt 3 / 3 * 1)) 0 0
             + mget (K_int_at (8/3) (1/3) 1 (- (sqrt 3 / 3 * 1)) (sqrt 3 / 3 * 1)) 0 0
             + mget (K_int_at (8/3) (1/3) 1 (sqrt 3 / 3 * 1) (- (sqrt 3 / 3 * 1))) 0 0
             + mget (K_int_at (8/3) (1/3) 1 (- (sqrt 3 / 3 * 1)) (- (sqrt 3 / 3 * 1))) 0 0).
Proof.
  apply K_gauss_two_by_two; [|lia|lia].
  replace ((sqrt 3 / 3) ^ 2) with (sqrt 3 ^ 2 / 9) by field.
  rewrite pow2_sqrt by lra. lra.
Defined.

(** ** The stiffness matrix, again *)

(** X12.  [K] is unchanged by the half turn of the element, which sends node
    1 to node 3 and node 2 to node 4: shifting both indices by four,
    modulo eight, leaves every entry as it is. *)
Theorem K_half_turn (E nu h : R) (i j : nat) :
  (i < 8)%nat -> (j < 8)%nat ->
  mget (K E nu h) ((i + 4) mod 8) ((j + 4) mod 8) = mget (K E nu h) i j.
Proof.
  intros Hi Hj. rewrite K_factor, !mget_scaled. f_equal.
  unfold K_closed.
  generalize (E / (1 - nu ^ 2)). intros g.
  generalize (nu * g) (g * ((1 - nu) / 2)). intros c s.
  do 8 (destruct i as [|i]; [do 8 (destruct j as [|j]; [reflexivity|]); lia|]).
  lia.
Qed.

Lemma K_half_turn_witness :
  mget (K (8/3) (1/3) 1) ((1 + 4) mod 8) ((6 + 4) mod 8)
  = mget (K (8/3) (1/3) 1) 1 6.
Proof. apply K_half_turn; lia. Defined.

(** X13.  For [E > 0], [-1 < nu < 1] and [h > 0] the eight diagonal entries
    of [K] are equal to [E (3 - nu) / (6 (1 - nu^2))], and positive. *)
Theorem K_diagonal (E nu h : R) (i : nat) :
  0 < E -> -1 < nu < 1 -> 0 < h -> (i < 8)%nat ->
  mget (K E nu h) i i = E * (3 - nu) / (6 * (1 - nu ^ 2))
  /\ 0 < mget (K E nu h) i i.
Proof.
  intros HE Hnu Hh Hi.
  assert (Hd : 0 < 1 - nu ^ 2) by nra.
  assert (Hv : mget (K E nu h) i i = E * (3 - nu) / (6 * (1 - nu ^ 2))).
  { rewrite K_closed_form by lra.
    do 8 (destruct i as [|i]; [rcompute; field; simpl in Hd; lra|]). lia. }
  split; [exact Hv|]. rewrite Hv.
  apply Rdiv_lt_0_compat; nra.
Qed.

Lemma K_diagonal_witness :
  mget (K (8/3) (1/3) 1) 5 5 = 8/3 * (3 - 1/3) / (6 * (1 - (1/3) ^ 2))
  /\ 0 < mget (K (8/3) (1/3) 1) 5 5.
Proof. apply K_diagonal; [lra | lra | lra | lia]. Defined.

(** X14.  For [E > 0], [-1 < nu < 1] and [h > 0], once node 3 is held in
    both directions and node 4 vertically, [K] is positive definite: every
    displacement other than zero that respects these supports has positive
    energy. *)
Theorem K_supported_positive_definite
        (E nu h : R) (u1 v1 u2 v2 u4 : R) :
  0 < E -> -1 < nu < 1 -> 0 < h ->
  [u1; v1; u2; v2; 0; 0; u4; 0] <> repeat 0 8 ->
  0 < quad (K E nu h) [u1; v1; u2; v2; 0; 0; u4; 0].
Proof.
  intros HE Hnu Hh Hne.
  rewrite K_closed_form by lra. unfold K_closed.
  pose proof (axial_stiffness_pos E nu HE Hnu) as Hg.
  set (g := E / (1 - nu ^ 2)) in *.
  pose proof (quad_K_of_nonneg g nu [u1; v1; u2; v2; 0; 0; u4; 0]
                Hg Hnu eq_refl) as Hq.
  destruct Hq as [Hq | Hq]; [exact Hq | exfalso].
  symmetry in Hq.
  destruct (quad_zero_strain_free g nu _ _ _ _ _ _ _ _ Hg Hnu Hq)
    as (H1 & H2 & H3 & H4 & H5).
  apply Hne. simpl repeat. list_eq; lra.
Qed.

Lemma K_supported_positive_definite_witness :
  0 < quad (K (8/3) (1/3) 1) [1; 0; 0; 0; 0; 0; 0; 0].
Proof.
  apply K_supported_positive_definite; [lra | lra | lra |].
  intros H. simpl in H. injection H. intros. lra.
Defined.
